(** * Special constraints of the Quint type checker

    A shallow embedding of [quint/src/types/specialConstraints.ts]: the
    constraint generator for the record and tuple operators [Rec], [field],
    [fieldNames], [with], [Tup] and [item], together with the pieces of its
    dependencies it relies on (lodash's [chunk] and [times], the
    [mergeInMany] combinator of [@sweet-monads/either], JavaScript array
    destructuring). *)

From Stdlib Require Import String Ascii List NArith ZArith Lia.
Import ListNotations.
Open Scope string_scope.
Set Warnings "-register-all".

(** ** Data model *)

(** Quint expressions ([quintIr.ts]); only the literal kinds matter here. *)
Inductive QuintEx : Type :=
| QName (id : Z) (name : string)
| QBool (id : Z) (value : bool)
| QInt (id : Z) (value : Z)
| QStr (id : Z) (value : string)
| QApp (id : Z) (opcode : string) (args : list QuintEx)
| QLambda (id : Z) (params : list string) (qualifier : string) (expr : QuintEx)
| QLet (id : Z) (opdefName : string) (opdefExpr : QuintEx) (expr : QuintEx).

(** The [kind] discriminant of an expression. *)
Definition ex_kind (e : QuintEx) : string :=
  match e with
  | QName _ _ => "name"
  | QBool _ _ => "bool"
  | QInt _ _ => "int"
  | QStr _ _ => "str"
  | QApp _ _ _ => "app"
  | QLambda _ _ _ _ => "lambda"
  | QLet _ _ _ _ => "let"
  end.

(** Quint types ([quintTypes.ts]); a row field [{ fieldName, fieldType }]
    is a pair. *)
Inductive QuintType : Type :=
| TBool
| TInt
| TStr
| TConst (name : string)
| TVar (name : string)
| TSet (elem : QuintType)
| TList (elem : QuintType)
| TFun (arg res : QuintType)
| TOper (args : list QuintType) (res : QuintType)
| TTup (fields : Row)
| TRec (fields : Row)
with Row : Type :=
| RRow (fields : list (string * QuintType)) (other : Row)
| RVar (name : string)
| REmpty.

(** Constraints ([types/base.ts]). *)
Inductive Constraint : Type :=
| CEq (t1 t2 : QuintType) (sourceId : Z)
| CConj (constraints : list Constraint)
| CEmpty.

(** Error trees ([errorTree.ts]): [Error = ErrorTree | ErrorTree[]]. *)
Inductive ErrorTree : Type :=
  mkErrorTree { location : string; message : option string; children : list ErrorTree }.

Inductive Error : Type :=
| ErrTree (t : ErrorTree)
| ErrTrees (ts : list ErrorTree).

Definition buildErrorLeaf (loc msg : string) : ErrorTree :=
  mkErrorTree loc (Some msg) [].

(** [Either] of [@sweet-monads/either]. *)
Inductive Either (L R : Type) : Type :=
| Left (l : L)
| Right (r : R).
Arguments Left {L R} l.
Arguments Right {L R} r.

(** [mergeInMany]: a [reduce] over the list starting from [right([])];
    once a [left] is met the result is a [left] collecting every later
    [left] value, in order. *)
Definition mergeInMany_step {L R} (acc : Either (list L) (list R)) (v : Either L R)
  : Either (list L) (list R) :=
  match acc, v with
  | Left ls, Left l => Left (ls ++ [l])%list
  | Left ls, Right _ => Left ls
  | Right _, Left l => Left [l]
  | Right rs, Right r => Right (rs ++ [r])%list
  end.

Definition mergeInMany {L R} (vs : list (Either L R)) : Either (list L) (list R) :=
  fold_left mergeInMany_step vs (Right []).

(** ** JavaScript evaluation: a value, or a thrown exception *)

Inductive Js (A : Type) : Type :=
| Ok (v : A)
| Thrown.
Arguments Ok {A} v.
Arguments Thrown {A}.

Definition js_bind {A B} (m : Js A) (k : A -> Js B) : Js B :=
  match m with
  | Ok v => k v
  | Thrown => Thrown
  end.

Notation "'let*' x ':=' m 'in' k" := (js_bind m (fun x => k))
  (at level 200, x name, m at level 100, k at level 200).

(** Reading position [i] of an array in a destructuring pattern: a missing
    element is [undefined], and destructuring [undefined] against a nested
    array pattern throws a [TypeError]. *)
Definition js_index {A} (xs : list A) (i : nat) : Js A :=
  match nth_error xs i with
  | Some x => Ok x
  | None => Thrown
  end.

(** [Array.prototype.map] with a callback that may throw. *)
Fixpoint js_map {A B} (f : A -> Js B) (xs : list A) : Js (list B) :=
  match xs with
  | [] => Ok []
  | x :: r => let* y := f x in let* ys := js_map f r in Ok (y :: ys)
  end.

(** ** Helpers from lodash and from JavaScript *)

(** lodash [chunk(xs, 2)]. *)
Fixpoint chunk2 {A} (xs : list A) : list (list A) :=
  match xs with
  | [] => []
  | [x] => [[x]]
  | x :: y :: r => [x; y] :: chunk2 r
  end.

Definition MAX_SAFE_INTEGER : Z := 9007199254740991.
Definition MAX_ARRAY_LENGTH : Z := 4294967295.

(** Length of lodash [times(Number(n))] for a bigint [n]: lodash returns
    [[]] when [n < 1 || n > MAX_SAFE_INTEGER] and otherwise keeps
    [min(n, MAX_ARRAY_LENGTH)] results.  [Number(n)] is exact up to
    [2^53]; above, it rounds to a value [>= 2^53 > MAX_SAFE_INTEGER], and
    below [-2^53] to a value [< 1], so the rounding never changes the
    outcome. *)
Definition times_count (n : Z) : Z :=
  if orb (n <? 1)%Z (MAX_SAFE_INTEGER <? n)%Z then 0%Z else Z.min n MAX_ARRAY_LENGTH.

(** [Array.prototype.push] of one element: an array holds at most
    [MAX_ARRAY_LENGTH] elements, and setting its [length] to [2^32] throws
    a [RangeError]. *)
Definition js_push {A} (xs : list A) (x : A) : Js (list A) :=
  if (Z.of_nat (length xs) <? MAX_ARRAY_LENGTH)%Z then Ok (xs ++ [x])%list else Thrown.

Definition zseq (n : Z) : list Z := map Z.of_nat (seq 0 (Z.to_nat n)).

(** lodash [times(Number(n), f)]. *)
Definition times {A} (n : Z) (f : Z -> A) : list A := map f (zseq (times_count n)).

(** Decimal rendering of an integer, as [`${i}`] does for numbers and
    bigints. *)
Fixpoint digits_aux (fuel : nat) (n : N) (acc : string) : string :=
  match fuel with
  | O => acc
  | S f =>
      let acc' := String (ascii_of_N (48 + N.modulo n 10)%N) acc in
      if N.eqb (N.div n 10) 0 then acc' else digits_aux f (N.div n 10) acc'
  end.

Definition string_of_N (n : N) : string := digits_aux (S (N.to_nat (N.size n))) n "".

Definition string_of_Z (z : Z) : string :=
  match z with
  | Zneg p => "-" ++ string_of_N (Npos p)
  | _ => string_of_N (Z.to_N z)
  end.

(** [Array.prototype.map] with the index passed to the callback. *)
Fixpoint mapi_from {A B} (f : A -> nat -> B) (k : nat) (xs : list A) : list B :=
  match xs with
  | [] => []
  | x :: r => f x k :: mapi_from f (S k) r
  end.

(** ** The constraint generator *)

Section SpecialConstraints.

(** [expressionToString] of [IRprinting.ts], used only in error messages. *)
Variable expressionToString : QuintEx -> string.

(** [`${args.map(a => expressionToString(a[0]))}`]: an array in a template
    literal is joined with commas. *)
Definition argsToString (args : list (QuintEx * QuintType)) : string :=
  String.concat "," (map (fun a => expressionToString (fst a)) args).

Definition recordError (args : list (QuintEx * QuintType)) (what : string) (e : QuintEx)
  : ErrorTree :=
  buildErrorLeaf ("Generating record constraints for " ++ argsToString args)
    (what ++ ex_kind e ++ ": " ++ expressionToString e).

Definition recordConstructorField (args : list (QuintEx * QuintType))
    (c : list (QuintEx * QuintType)) : Js (Either ErrorTree (string * QuintType)) :=
  let* kv := js_index c 0 in
  let* vv := js_index c 1 in
  match fst kv with
  | QStr _ s => Ok (Right (s, snd vv))
  | key => Ok (Left (recordError args "Record field name must be a name expression but is " key))
  end.

(** [mergeInMany(fields).map(...)]: the left value is the array of every
    field error, an [ErrorTree[]], which is an [Error]. *)
Definition recordConstructorConstraints (id : Z) (args : list (QuintEx * QuintType))
    (resultTypeVar : string) : Js (Either Error (list Constraint)) :=
  let* fields := js_map (recordConstructorField args) (chunk2 args) in
  Ok (match mergeInMany fields with
      | Left errs => Left (ErrTrees errs)
      | Right fs => Right [CEq (TRec (RRow fs REmpty)) (TVar resultTypeVar) id]
      end).

Definition fieldConstraints (id : Z) (args : list (QuintEx * QuintType))
    (resultTypeVar : string) : Js (Either Error (list Constraint)) :=
  let* a0 := js_index args 0 in
  let* a1 := js_index args 1 in
  let recType := snd a0 in
  match fst a1 with
  | QStr _ f =>
      let generalRecType :=
        TRec (RRow [(f, TVar resultTypeVar)] (RVar ("tail_" ++ resultTypeVar))) in
      Ok (Right [CEq recType generalRecType id])
  | fieldName =>
      Ok (Left (ErrTree (recordError args
        "Record field name must be a string expression but is " fieldName)))
  end.

Definition fieldNamesConstraints (id : Z) (args : list (QuintEx * QuintType))
    (resultTypeVar : string) : Js (Either Error (list Constraint)) :=
  let* a0 := js_index args 0 in
  let recType := snd a0 in
  let generalRecType := TRec (RVar ("rec_" ++ resultTypeVar)) in
  Ok (Right [CEq (TVar resultTypeVar) (TSet TStr) id; CEq recType generalRecType id]).

Definition withConstraints (id : Z) (args : list (QuintEx * QuintType))
    (resultTypeVar : string) : Js (Either Error (list Constraint)) :=
  let* a0 := js_index args 0 in
  let* a1 := js_index args 1 in
  let* a2 := js_index args 2 in
  let recType := snd a0 in
  let valueType := snd a2 in
  match fst a1 with
  | QStr _ f =>
      let generalRecType :=
        TRec (RRow [(f, valueType)] (RVar ("tail_" ++ resultTypeVar))) in
      Ok (Right [CEq recType generalRecType id; CEq (TVar resultTypeVar) generalRecType id])
  | fieldName =>
      Ok (Left (ErrTree (recordError args
        "Record field name must be a string expression but is " fieldName)))
  end.

Definition tupleConstructorConstraints (id : Z) (args : list (QuintEx * QuintType))
    (resultTypeVar : string) : Js (Either Error (list Constraint)) :=
  let fields := mapi_from (fun a i => (string_of_Z (Z.of_nat i), snd a)) 0 args in
  Ok (Right [CEq (TTup (RRow fields REmpty)) (TVar resultTypeVar) id]).

Definition itemConstraints (id : Z) (args : list (QuintEx * QuintType))
    (resultTypeVar : string) : Js (Either Error (list Constraint)) :=
  let* a0 := js_index args 0 in
  let* a1 := js_index args 1 in
  let tupType := snd a0 in
  match fst a1 with
  | QInt _ v =>
      let* fields :=
        js_push (times (v - 1) (fun i =>
          (string_of_Z i, TVar ("tup_" ++ resultTypeVar ++ "_" ++ string_of_Z i))))
          (string_of_Z (v - 1), TVar resultTypeVar) in
      let generalTupType := TTup (RRow fields (RVar ("tail_" ++ resultTypeVar))) in
      Ok (Right [CEq tupType generalTupType id])
  | itemName =>
      Ok (Left (ErrTree (buildErrorLeaf
        ("Generating record constraints for " ++ argsToString args)
        ("Tup field index must be an int expression but is " ++ ex_kind itemName
           ++ ": " ++ expressionToString itemName))))
  end.

Definition specialConstraints (opcode : string) (id : Z)
    (args : list (QuintEx * QuintType)) (resultTypeVar : string)
  : Js (Either Error (list Constraint)) :=
  if String.eqb opcode "Rec" then recordConstructorConstraints id args resultTypeVar
  else if String.eqb opcode "field" then fieldConstraints id args resultTypeVar
  else if String.eqb opcode "fieldNames" then fieldNamesConstraints id args resultTypeVar
  else if String.eqb opcode "with" then withConstraints id args resultTypeVar
  else if String.eqb opcode "Tup" then tupleConstructorConstraints id args resultTypeVar
  else if String.eqb opcode "item" then itemConstraints id args resultTypeVar
  else Ok (Right []).

End SpecialConstraints.

(** A sample printer for error messages. *)
Definition show_ex (e : QuintEx) : string :=
  match e with
  | QName _ n => n
  | QStr _ s => s
  | QInt _ v => string_of_Z v
  | _ => "<expr>"
  end.

(** ** Inputs described by the claims *)

(** The six operators handled specially. *)
Definition special_opcodes : list string :=
  ["Rec"; "field"; "fieldNames"; "with"; "Tup"; "item"].

(** One [key, value] pair of a record constructor whose key is a string
    literal. *)
Record RecEntry : Type := mkRecEntry {
  key_id : Z;
  key_lit : string;
  key_type : QuintType;
  value_arg : QuintEx * QuintType
}.

(** The flattened argument list [Rec(k1, v1, ..., kn, vn)]. *)
Definition rec_entry_args (es : list RecEntry) : list (QuintEx * QuintType) :=
  flat_map (fun e => [(QStr (key_id e) (key_lit e), key_type e); value_arg e]) es.

Definition rec_pair_args (ps : list ((QuintEx * QuintType) * (QuintEx * QuintType)))
  : list (QuintEx * QuintType) :=
  flat_map (fun p => [fst p; snd p]) ps.

Definition is_str_lit (e : QuintEx) : bool :=
  match e with QStr _ _ => true | _ => false end.




Fixpoint lefts {L R} (vs : list (Either L R)) : list L :=
  match vs with
  | [] => []
  | Left l :: r => l :: lefts r
  | Right _ :: r => lefts r
  end.

Fixpoint rights {L R} (vs : list (Either L R)) : list R :=
  match vs with
  | [] => []
  | Left _ :: r => rights r
  | Right x :: r => x :: rights r
  end.

(** A [Rec] call whose two keys are both names, not string literals. *)
Definition bad_rec_args : list (QuintEx * QuintType) :=
  [(QName 1 "a", TStr); (QInt 2 1, TInt); (QName 3 "b", TStr); (QInt 4 2, TInt)].

(** ** Further definitions *)

(** Reading back a decimal string (used to state properties of
    [string_of_Z]). *)
Fixpoint dec_aux (s : string) (v : N) : N :=
  match s with
  | EmptyString => v
  | String c s' => dec_aux s' (v * 10 + (N_of_ascii c - 48))%N
  end.

(** The leaves of an [Error]. *)
Definition error_leaves (e : Error) : list ErrorTree :=
  match e with
  | ErrTree t => [t]
  | ErrTrees ts => ts
  end.

(** The names of the type variables among a row's field types. *)
Definition type_var_names (t : QuintType) : list string :=
  match t with
  | TVar n => [n]
  | _ => []
  end.

Definition is_int_lit (e : QuintEx) : bool :=
  match e with QInt _ _ => true | _ => false end.

(** A substitution entry ([types/substitutions.ts]). *)
Record Substitution : Type := mkSubstitution { sub_name : string; sub_value : QuintType }.

Section Printing.

(** [typeToString] of [IRprinting.ts]. *)
Variable typeToString : QuintType -> string.

(** [constraintToString] ([types/printing.ts]); [join] on an array is
    [String.concat]. *)
Fixpoint constraintToString (c : Constraint) : string :=
  match c with
  | CEq t1 t2 _ => typeToString t1 ++ " ~ " ++ typeToString t2
  | CConj cs => String.concat " /\ " (map constraintToString cs)
  | CEmpty => "true"
  end.

(** [substitutionsToString] ([types/printing.ts]). *)
Definition substitutionsToString (subs : list Substitution) : string :=
  let subsString := map (fun s => sub_name s ++ " |-> " ++ typeToString (sub_value s)) subs in
  "[ " ++ String.concat ", " subsString ++ " ]".

End Printing.

(** A [with] call on a record [r], field ["x"] and an [int] value. *)
Definition with_sample_args : list (QuintEx * QuintType) :=
  [(QName 1 "r", TVar "R"); (QStr 2 "x", TStr); (QInt 3 1, TInt)].

(** ** Sample runs *)

Example string_of_Z_samples :
  string_of_Z 0 = "0" /\ string_of_Z 12 = "12" /\ string_of_Z (-1) = "-1"
  /\ string_of_Z 9007199254740992 = "9007199254740992".
Proof. vm_compute. repeat split. Qed.

Example item_3_sample :
  specialConstraints show_ex "item" 7%Z [(QName 1 "t", TVar "T"); (QInt 2 3, TInt)] "X"
  = Ok (Right [CEq (TVar "T")
        (TTup (RRow [("0", TVar "tup_X_0"); ("1", TVar "tup_X_1"); ("2", TVar "X")]
                    (RVar "tail_X"))) 7]).
Proof. vm_compute. reflexivity. Qed.

Example rec_sample :
  specialConstraints show_ex "Rec" 7%Z
    [(QStr 1 "name", TStr); (QStr 2 "Alice", TStr); (QStr 3 "age", TStr); (QInt 4 30, TInt)] "X"
  = Ok (Right [CEq (TRec (RRow [("name", TStr); ("age", TInt)] REmpty)) (TVar "X") 7]).
Proof. vm_compute. reflexivity. Qed.

Example rec_odd_sample :
  specialConstraints show_ex "Rec" 7%Z [(QStr 1 "name", TStr)] "X" = Thrown.
Proof. vm_compute. reflexivity. Qed.

(** ** Properties of the helpers *)

Lemma mergeInMany_from_left {L R} (vs : list (Either L R)) (ls : list L) :
  fold_left mergeInMany_step vs (Left ls) = Left (ls ++ lefts vs)%list.
Proof.
  revert ls; induction vs as [|[l|x] vs IH]; intros ls; simpl.
  - now rewrite app_nil_r.
  - rewrite IH, <- app_assoc. reflexivity.
  - apply IH.
Qed.

Lemma mergeInMany_from_right {L R} (vs : list (Either L R)) (rs : list R) :
  fold_left mergeInMany_step vs (Right rs)
  = match lefts vs with
    | [] => Right (rs ++ rights vs)%list
    | ls => Left ls
    end.
Proof.
  revert rs; induction vs as [|[l|x] vs IH]; intros rs; simpl.
  - now rewrite app_nil_r.
  - now rewrite mergeInMany_from_left.
  - rewrite IH. destruct (lefts vs); [now rewrite <- app_assoc | reflexivity].
Qed.

Lemma mergeInMany_spec {L R} (vs : list (Either L R)) :
  mergeInMany vs = match lefts vs with
                   | [] => Right (rights vs)
                   | ls => Left ls
                   end.
Proof. unfold mergeInMany. now rewrite mergeInMany_from_right. Qed.

Lemma mapi_from_combine {A B} (g : nat -> string) (k : nat) (xs : list (A * B)) :
  mapi_from (fun a i => (g i, snd a)) k xs = combine (map g (seq k (length xs))) (map snd xs).
Proof.
  revert k; induction xs as [|x xs IH]; intros k; simpl; [reflexivity|].
  now rewrite IH.
Qed.

Section Generator.

Variable pr : QuintEx -> string.

Lemma chunk2_rec_entry_args (es : list RecEntry) :
  chunk2 (rec_entry_args es)
  = map (fun e => [(QStr (key_id e) (key_lit e), key_type e); value_arg e]) es.
Proof. induction es as [|e es IH]; simpl; [reflexivity|]. now rewrite IH. Qed.

Lemma chunk2_rec_pair_args ps :
  chunk2 (rec_pair_args ps) = map (fun p => [fst p; snd p]) ps.
Proof. induction ps as [|p ps IH]; simpl; [reflexivity|]. now rewrite IH. Qed.

Lemma rec_fields_of_pairs args (ps : list ((QuintEx * QuintType) * (QuintEx * QuintType))) :
  js_map (recordConstructorField pr args) (map (fun p => [fst p; snd p]) ps)
  = Ok (map (fun p => match fst (fst p) with
                      | QStr _ s => Right (s, snd (snd p))
                      | key => Left (recordError pr args
                                 "Record field name must be a name expression but is " key)
                      end) ps).
Proof.
  induction ps as [|p ps IH]; simpl; [reflexivity|].
  unfold recordConstructorField at 1; simpl.
  rewrite IH. destruct (fst (fst p)); reflexivity.
Qed.

End Generator.

Lemma lefts_map_right {L A B} (f : A -> B) (xs : list A) :
  lefts (map (fun x => @Right L B (f x)) xs) = [].
Proof. induction xs; simpl; auto. Qed.

Lemma rights_map_right {L A B} (f : A -> B) (xs : list A) :
  rights (map (fun x => @Right L B (f x)) xs) = map f xs.
Proof. induction xs as [|x xs IH]; simpl; [reflexivity|]. now rewrite IH. Qed.

Section Generator2.

Variable pr : QuintEx -> string.

Lemma rec_fields_of_entries args es :
  js_map (recordConstructorField pr args)
    (map (fun e => [(QStr (key_id e) (key_lit e), key_type e); value_arg e]) es)
  = Ok (map (fun e => Right (key_lit e, snd (value_arg e))) es).
Proof.
  induction es as [|e es IH]; simpl; [reflexivity|].
  rewrite IH. reflexivity.
Qed.

Lemma lefts_rec_fields args (ps : list ((QuintEx * QuintType) * (QuintEx * QuintType))) :
  lefts (map (fun p => match fst (fst p) with
                       | QStr _ s => Right (s, snd (snd p))
                       | key => Left (recordError pr args
                                  "Record field name must be a name expression but is " key)
                       end) ps)
  = map (recordError pr args "Record field name must be a name expression but is ")
      (filter (fun k => negb (is_str_lit k)) (map (fun p => fst (fst p)) ps)).
Proof.
  induction ps as [|p ps IH]; simpl; [reflexivity|].
  destruct (fst (fst p)); simpl; now rewrite IH.
Qed.

Lemma filter_nonempty_of_existsb (ps : list ((QuintEx * QuintType) * (QuintEx * QuintType))) :
  existsb (fun p => negb (is_str_lit (fst (fst p)))) ps = true ->
  filter (fun k => negb (is_str_lit k)) (map (fun p => fst (fst p)) ps) <> [].
Proof.
  induction ps as [|p ps IH]; simpl; [discriminate|].
  destruct (negb (is_str_lit (fst (fst p)))); simpl; [discriminate|auto].
Qed.

End Generator2.

(** ** Claims *)

Section Claims.

Variable pr : QuintEx -> string.

(** C1: [with] on a string-literal field name [f] succeeds with exactly two
    equalities, [recType ~ R] and [X ~ R], where [R] is one and the same
    open record [{ f: valueType | tail_X }]. *)
Theorem with_constraints_share_open_record (id : Z) rec recType fid f ft value valueType X :
  let R := TRec (RRow [(f, valueType)] (RVar ("tail_" ++ X))) in
  specialConstraints pr "with" id [(rec, recType); (QStr fid f, ft); (value, valueType)] X
  = Ok (Right [CEq recType R id; CEq (TVar X) R id]).
Proof. reflexivity. Qed.

(** C3: [Rec] over string-literal keys (duplicates included) succeeds with
    the single equality [{ k1: type(v1), ..., kn: type(vn) } ~ X] on a
    closed record, fields in argument order. *)
Theorem rec_constraints_closed_record id es X :
  specialConstraints pr "Rec" id (rec_entry_args es) X
  = Ok (Right [CEq (TRec (RRow (map (fun e => (key_lit e, snd (value_arg e))) es) REmpty))
                   (TVar X) id]).
Proof.
  unfold specialConstraints; simpl. unfold recordConstructorConstraints.
  rewrite chunk2_rec_entry_args, rec_fields_of_entries. simpl.
  rewrite mergeInMany_spec, lefts_map_right, rights_map_right. reflexivity.
Qed.

(** C5: [field] with a string-literal name [f] gives the single equality
    [recType ~ { f: X | tail_X }]; with any other name expression it fails
    with an error leaf naming that expression. *)
Theorem field_constraints_open_record id rec recType fe ft X :
  specialConstraints pr "field" id [(rec, recType); (fe, ft)] X
  = match fe with
    | QStr _ f =>
        Ok (Right [CEq recType (TRec (RRow [(f, TVar X)] (RVar ("tail_" ++ X)))) id])
    | _ =>
        Ok (Left (ErrTree (buildErrorLeaf
          ("Generating record constraints for " ++ argsToString pr [(rec, recType); (fe, ft)])
          ("Record field name must be a string expression but is " ++ ex_kind fe
             ++ ": " ++ pr fe))))
    end.
Proof. destruct fe; reflexivity. Qed.

(** C6: [Tup] always succeeds with the single equality
    [{ 0: A0, ..., n-1: A(n-1) } ~ X] on a closed tuple row. *)
Theorem tup_constraints_closed_tuple id args X :
  specialConstraints pr "Tup" id args X
  = Ok (Right [CEq (TTup (RRow (combine (map (fun i => string_of_Z (Z.of_nat i))
                                             (seq 0 (length args)))
                                        (map snd args)) REmpty))
                   (TVar X) id]).
Proof.
  unfold specialConstraints; simpl. unfold tupleConstructorConstraints.
  now rewrite mapi_from_combine.
Qed.

(** C7: [fieldNames] on one argument succeeds with [X ~ Set(str)] and
    [recType ~ Rec(rec_X)], the row being the bare variable [rec_X]. *)
Theorem field_names_constraints id rec recType X :
  specialConstraints pr "fieldNames" id [(rec, recType)] X
  = Ok (Right [CEq (TVar X) (TSet TStr) id; CEq recType (TRec (RVar ("rec_" ++ X))) id]).
Proof. reflexivity. Qed.

(** C8: any opcode other than the six special ones yields success with no
    constraints, whatever the arguments. *)
Theorem other_opcodes_no_constraints opcode id args X
  (Hop : existsb (String.eqb opcode) special_opcodes = false) :
  specialConstraints pr opcode id args X = Ok (Right []).
Proof.
  unfold special_opcodes in Hop; simpl in Hop.
  repeat rewrite Bool.orb_false_iff in Hop.
  destruct Hop as (H1 & H2 & H3 & H4 & H5 & H6 & _).
  unfold specialConstraints. now rewrite H1, H2, H3, H4, H5, H6.
Qed.

(** C10: [item] with an integer literal [N <= 0] succeeds with a single
    equality on an open tuple holding only the field [N-1] (e.g. ["-1"]),
    typed [X], and tail [tail_X]. *)
Theorem item_nonpositive_index id tup tupType iid N it X (HN : (N <= 0)%Z) :
  specialConstraints pr "item" id [(tup, tupType); (QInt iid N, it)] X
  = Ok (Right [CEq tupType (TTup (RRow [(string_of_Z (N - 1), TVar X)]
                                       (RVar ("tail_" ++ X)))) id]).
Proof.
  unfold specialConstraints; simpl. unfold itemConstraints; simpl.
  unfold times, times_count.
  replace (N - 1 <? 1)%Z with true by (symmetry; apply Z.ltb_lt; lia).
  reflexivity.
Qed.

End Claims.

(** The placeholder list of [item] has room for one more element exactly
    when lodash [times] did not stop at [MAX_ARRAY_LENGTH]. *)
Lemma times_push_room {A} (n : Z) (f : Z -> A) :
  (Z.of_nat (length (times n f)) <? MAX_ARRAY_LENGTH)%Z
  = negb ((MAX_ARRAY_LENGTH <=? n)%Z && (n <=? MAX_SAFE_INTEGER)%Z).
Proof.
  unfold times, zseq. rewrite !length_map, length_seq.
  unfold times_count, MAX_SAFE_INTEGER, MAX_ARRAY_LENGTH.
  destruct (n <? 1)%Z eqn:E1; destruct (9007199254740991 <? n)%Z eqn:E2;
    apply Z.ltb_lt in E1 || apply Z.ltb_ge in E1;
    apply Z.ltb_lt in E2 || apply Z.ltb_ge in E2; simpl.
  - replace (4294967295 <=? n)%Z with false by (symmetry; apply Z.leb_gt; lia). reflexivity.
  - replace (4294967295 <=? n)%Z with false by (symmetry; apply Z.leb_gt; lia). reflexivity.
  - replace (n <=? 9007199254740991)%Z with false by (symmetry; apply Z.leb_gt; lia).
    rewrite Bool.andb_false_r. reflexivity.
  - replace (n <=? 9007199254740991)%Z with true by (symmetry; apply Z.leb_le; lia).
    rewrite Bool.andb_true_r. rewrite Z2Nat.id by lia.
    destruct (Z.le_gt_cases 4294967295 n).
    + rewrite Z.min_r by lia.
      replace (4294967295 <=? n)%Z with true by (symmetry; apply Z.leb_le; lia). reflexivity.
    + rewrite Z.min_l by lia.
      replace (4294967295 <=? n)%Z with false by (symmetry; apply Z.leb_gt; lia).
      apply Z.ltb_lt. lia.
Qed.

Section Arity.

Variable pr : QuintEx -> string.








End Arity.

Lemma times_count_exact (n : Z) :
  (0 <= n <= MAX_ARRAY_LENGTH)%Z -> times_count n = n.
Proof.
  intros Hn. unfold times_count, MAX_SAFE_INTEGER, MAX_ARRAY_LENGTH in *.
  destruct (Z.eq_dec n 0) as [->|Hn0]; [reflexivity|].
  replace (n <? 1)%Z with false by (symmetry; apply Z.ltb_ge; lia).
  replace (9007199254740991 <? n)%Z with false by (symmetry; apply Z.ltb_ge; lia).
  simpl. lia.
Qed.

Section Items.

Variable pr : QuintEx -> string.

(** [item] with an index that is not an integer literal fails with an
    error leaf naming the index expression. *)
Lemma item_non_int_index_error id tup tupType ie it X :
  (forall iid v, ie <> QInt iid v) ->
  specialConstraints pr "item" id [(tup, tupType); (ie, it)] X
  = Ok (Left (ErrTree (buildErrorLeaf
      ("Generating record constraints for " ++ argsToString pr [(tup, tupType); (ie, it)])
      ("Tup field index must be an int expression but is " ++ ex_kind ie ++ ": " ++ pr ie)))).
Proof.
  intros Hie. destruct ie; try reflexivity. exfalso; eapply Hie; reflexivity.
Qed.

(** [item] with an integer literal [1 <= N <= 2^32 - 1] (below the array
    length bound) builds [{ 0: tup_X_0, ..., N-2: tup_X_(N-2), N-1: X | tail_X }]. *)
Lemma item_constraints_within_array_limit id tup tupType iid N it X
  (H1 : (1 <= N)%Z) (H2 : (N - 1 < MAX_ARRAY_LENGTH)%Z) :
  specialConstraints pr "item" id [(tup, tupType); (QInt iid N, it)] X
  = Ok (Right [CEq tupType
        (TTup (RRow (map (fun i => (string_of_Z i, TVar ("tup_" ++ X ++ "_" ++ string_of_Z i)))
                         (zseq (N - 1))
                     ++ [(string_of_Z (N - 1), TVar X)])%list
                    (RVar ("tail_" ++ X)))) id]).
Proof.
  unfold specialConstraints; simpl. unfold itemConstraints, js_bind; simpl.
  unfold js_push. rewrite times_push_room.
  replace (MAX_ARRAY_LENGTH <=? N - 1)%Z with false by (symmetry; apply Z.leb_gt; lia).
  simpl. unfold times. rewrite times_count_exact by lia. reflexivity.
Qed.

End Items.

Section Claims2.

Variable pr : QuintEx -> string.

(** C2 (code bug): [item] with the integer literal [2^53 + 1] builds no
    placeholder for positions [0 .. 2^53 - 1]: lodash [times] returns [[]]
    above [MAX_SAFE_INTEGER], so the open tuple holds only the field
    ["9007199254740992"]. *)
Theorem item_index_beyond_safe_integer id tup tupType iid it X :
  specialConstraints pr "item" id [(tup, tupType); (QInt iid 9007199254740993, it)] X
  = Ok (Right [CEq tupType (TTup (RRow [("9007199254740992", TVar X)]
                                       (RVar ("tail_" ++ X)))) id]).
Proof. vm_compute. reflexivity. Qed.

(** C4 (amended): a [Rec] call on an even-length argument list with at least
    one key that is not a string literal fails, and the error is the list of
    the validation errors of every non-literal key, in argument order, each
    naming its key and the full argument list. *)
Theorem rec_constraints_report_every_bad_key id
  (ps : list ((QuintEx * QuintType) * (QuintEx * QuintType))) X
  (Hbad : existsb (fun p => negb (is_str_lit (fst (fst p)))) ps = true) :
  specialConstraints pr "Rec" id (rec_pair_args ps) X
  = Ok (Left (ErrTrees
      (map (recordError pr (rec_pair_args ps) "Record field name must be a name expression but is ")
           (filter (fun k => negb (is_str_lit k)) (map (fun p => fst (fst p)) ps))))).
Proof.
  unfold specialConstraints; simpl. unfold recordConstructorConstraints.
  rewrite chunk2_rec_pair_args, rec_fields_of_pairs. simpl.
  rewrite mergeInMany_spec, lefts_rec_fields.
  apply filter_nonempty_of_existsb in Hbad.
  destruct (filter (fun k => negb (is_str_lit k)) (map (fun p => fst (fst p)) ps));
    [contradiction | reflexivity].
Qed.


End Claims2.

(** ** Counterexamples *)

(** C4: with two non-literal keys the error lists both, so it is not the
    single error of the first failing key. *)
Lemma rec_two_bad_keys_counterexample :
  let e1 := recordError show_ex bad_rec_args
              "Record field name must be a name expression but is " (QName 1 "a") in
  let e2 := recordError show_ex bad_rec_args
              "Record field name must be a name expression but is " (QName 3 "b") in
  specialConstraints show_ex "Rec" 0 bad_rec_args "X" = Ok (Left (ErrTrees [e1; e2]))
  /\ specialConstraints show_ex "Rec" 0 bad_rec_args "X" <> Ok (Left (ErrTree e1))
  /\ specialConstraints show_ex "Rec" 0 bad_rec_args "X" <> Ok (Left (ErrTrees [e1])).
Proof. vm_compute. repeat split; discriminate. Qed.


(** ** Witnesses *)

Lemma other_opcodes_no_constraints_witness :
  existsb (String.eqb "iadd") special_opcodes = false
  /\ specialConstraints show_ex "iadd" 0 [] "X" = Ok (Right []).
Proof.
  split; [reflexivity|].
  apply (other_opcodes_no_constraints show_ex "iadd" 0 [] "X"). reflexivity.
Defined.

Lemma item_nonpositive_index_witness :
  (0 <= 0)%Z
  /\ specialConstraints show_ex "item" 0 [(QName 1 "t", TVar "T"); (QInt 2 0, TInt)] "X"
     = Ok (Right [CEq (TVar "T") (TTup (RRow [(string_of_Z (0 - 1), TVar "X")]
                                             (RVar ("tail_" ++ "X")))) 0]).
Proof.
  split; [lia|].
  apply (item_nonpositive_index show_ex 0 (QName 1 "t") (TVar "T") 2 0 TInt "X"). lia.
Defined.

Lemma rec_constraints_report_every_bad_key_witness :
  let ps := [((QName 1 "a", TStr), (QInt 2 1, TInt)); ((QStr 3 "b", TStr), (QInt 4 2, TInt))] in
  existsb (fun p => negb (is_str_lit (fst (fst p)))) ps = true
  /\ specialConstraints show_ex "Rec" 0 (rec_pair_args ps) "X"
     = Ok (Left (ErrTrees
         (map (recordError show_ex (rec_pair_args ps)
                 "Record field name must be a name expression but is ")
              (filter (fun k => negb (is_str_lit k)) (map (fun p => fst (fst p)) ps))))).
Proof.
  intros ps. split; [reflexivity|].
  apply (rec_constraints_report_every_bad_key show_ex 0 ps "X"). reflexivity.
Defined.

(** ** Decimal rendering *)

Lemma str_app_assoc (a b c : string) : a ++ (b ++ c) = (a ++ b) ++ c.
Proof. induction a as [|x a IH]; simpl; congruence. Qed.

Lemma str_app_inj_l (a b c : string) : a ++ b = a ++ c -> b = c.
Proof. induction a as [|x a IH]; simpl; [auto|]. intros H; injection H; auto. Qed.

Lemma str_length_app (a b : string) : String.length (a ++ b) = String.length a + String.length b.
Proof. induction a as [|x a IH]; simpl; congruence. Qed.

Lemma digits_aux_app (f : nat) (n : N) (acc : string) :
  digits_aux f n acc = digits_aux f n "" ++ acc.
Proof.
  revert n acc; induction f as [|f IH]; intros n acc; cbn [digits_aux]; [reflexivity|].
  destruct (N.eqb (N.div n 10) 0); [reflexivity|].
  rewrite (IH _ (String _ acc)), (IH _ (String _ "")).
  rewrite <- str_app_assoc. reflexivity.
Qed.

Lemma dec_aux_app (s t : string) (v : N) :
  dec_aux (s ++ t) v = dec_aux t (dec_aux s v).
Proof. revert v; induction s as [|c s IH]; intros v; simpl; auto. Qed.

Lemma digit_char (r : N) : (r < 10)%N -> (N_of_ascii (ascii_of_N (48 + r)) - 48 = r)%N.
Proof. intros Hr. rewrite N_ascii_embedding by lia. lia. Qed.

Lemma digits_aux_S (f : nat) (n : N) (acc : string) :
  digits_aux (S f) n acc
  = if N.eqb (N.div n 10) 0 then String (ascii_of_N (48 + N.modulo n 10)%N) acc
    else digits_aux f (N.div n 10) (String (ascii_of_N (48 + N.modulo n 10)%N) acc).
Proof. reflexivity. Qed.

Lemma dec_digits_aux (f : nat) (n : N) :
  (n < 10 ^ N.of_nat f)%N -> dec_aux (digits_aux (S f) n "") 0 = n.
Proof.
  revert n; induction f as [|f IH]; intros n Hn.
  - simpl in Hn. assert (n = 0%N) by lia. subst n. reflexivity.
  - rewrite digits_aux_S.
    pose proof (N.div_mod n 10 ltac:(discriminate)) as Hdm.
    pose proof (N.mod_lt n 10 ltac:(discriminate)) as Hr.
    destruct (N.eqb (N.div n 10) 0) eqn:Hq.
    + apply N.eqb_eq in Hq. cbn [dec_aux]. rewrite digit_char by lia. lia.
    + rewrite digits_aux_app, dec_aux_app, IH.
      * cbn [dec_aux]. rewrite digit_char by lia. lia.
      * apply N.Div0.div_lt_upper_bound.
        rewrite Nat2N.inj_succ, N.pow_succ_r' in Hn. lia.
Qed.

Lemma dec_string_of_N (n : N) : dec_aux (string_of_N n) 0 = n.
Proof.
  unfold string_of_N. apply dec_digits_aux.
  rewrite N2Nat.id.
  eapply N.lt_le_trans; [apply N.size_gt|].
  apply N.pow_le_mono_l. lia.
Qed.

Lemma string_of_Z_inj_nonneg (i j : Z) :
  (0 <= i)%Z -> (0 <= j)%Z -> string_of_Z i = string_of_Z j -> i = j.
Proof.
  intros Hi Hj H.
  destruct i as [|p|p]; destruct j as [|q|q]; try lia; simpl in H;
    apply (f_equal (fun s => dec_aux s 0)) in H; rewrite !dec_string_of_N in H;
    simpl in H; congruence.
Qed.

Lemma string_of_nat_injective (i j : nat) :
  string_of_Z (Z.of_nat i) = string_of_Z (Z.of_nat j) -> i = j.
Proof. intros H. apply string_of_Z_inj_nonneg in H; lia. Qed.

Lemma NoDup_map_on {A B} (f : A -> B) (l : list A) :
  (forall x y, In x l -> In y l -> f x = f y -> x = y) -> NoDup l -> NoDup (map f l).
Proof.
  induction l as [|a l IH]; intros Hinj Hnd; simpl; [constructor|].
  inversion Hnd as [|? ? Hna Hnd']; subst. constructor.
  - intros Hin. apply in_map_iff in Hin as (x & Hfx & Hx).
    assert (x = a) by (apply Hinj; simpl; auto). subst. contradiction.
  - apply IH; auto. intros x y Hx Hy. apply Hinj; simpl; auto.
Qed.

(** ** Further properties of the generator *)

Lemma map_combine_fst_snd {A B} (l1 : list A) (l2 : list B) :
  length l1 = length l2 -> map fst (combine l1 l2) = l1 /\ map snd (combine l1 l2) = l2.
Proof.
  revert l2; induction l1 as [|a l1 IH]; intros [|b l2] H; simpl in *; try discriminate; auto.
  destruct (IH l2) as [H1 H2]; [lia|]. now rewrite H1, H2.
Qed.

Lemma NoDup_app_single {A} (l : list A) (b : A) :
  NoDup l -> ~ In b l -> NoDup (l ++ [b]).
Proof.
  induction l as [|a l IH]; intros Hnd Hb; simpl; [repeat constructor; auto|].
  inversion Hnd as [|? ? Ha Hnd']; subst. constructor.
  - rewrite in_app_iff. intros [H|[H|H]]; [auto| |auto]. subst. apply Hb; simpl; auto.
  - apply IH; auto. intros H; apply Hb; simpl; auto.
Qed.

Lemma in_zseq (i n : Z) : In i (zseq n) -> (0 <= i < n)%Z.
Proof.
  unfold zseq. intros H. apply in_map_iff in H as (k & <- & Hk).
  apply in_seq in Hk. destruct n as [|p|p]; simpl in Hk; try lia.
Qed.

Lemma times_count_bound (n : Z) : (0 <= times_count n)%Z /\ (times_count n = 0 \/ times_count n <= n)%Z.
Proof.
  unfold times_count, MAX_SAFE_INTEGER, MAX_ARRAY_LENGTH.
  destruct (n <? 1)%Z eqn:E1; simpl; [lia|].
  destruct (9007199254740991 <? n)%Z eqn:E2; simpl; [lia|].
  apply Z.ltb_ge in E1. lia.
Qed.

Lemma zseq_nat (k : nat) : zseq (Z.of_nat k) = map Z.of_nat (seq 0 k).
Proof. unfold zseq. now rewrite Nat2Z.id. Qed.

Lemma flat_map_placeholders {A} (h : A -> string) (g : A -> string) (l : list A) :
  flat_map type_var_names (map snd (map (fun x => (h x, TVar (g x))) l)) = map g l.
Proof. induction l as [|a l IH]; simpl; [reflexivity|]. now rewrite IH. Qed.

Section Extras.

Variable pr : QuintEx -> string.

(** [Tup]: the closed tuple row has pairwise distinct field names and
    carries the argument types in order. *)
Theorem tup_field_names_distinct id args X :
  exists fs,
    specialConstraints pr "Tup" id args X
      = Ok (Right [CEq (TTup (RRow fs REmpty)) (TVar X) id])
    /\ map snd fs = map snd args
    /\ NoDup (map fst fs).
Proof.
  eexists. split; [unfold specialConstraints; simpl; reflexivity|].
  unfold tupleConstructorConstraints. rewrite mapi_from_combine.
  destruct (map_combine_fst_snd (map (fun i => string_of_Z (Z.of_nat i)) (seq 0 (length args)))
              (map snd args)) as [H1 H2]; [now rewrite !length_map, length_seq|].
  rewrite H1, H2. split; [reflexivity|].
  apply NoDup_map_on; [|apply seq_NoDup].
  intros x y _ _. apply string_of_nat_injective.
Qed.

(** [item] on any integer literal [N]: when [2^32 <= N <= 2^53], lodash
    [times] returns [MAX_ARRAY_LENGTH] placeholders and [fields.push]
    throws; for every other [N] the open tuple row ends with the field
    [N-1] typed by the result variable, and every field before it is a
    placeholder [i: tup_X_i] for some [0 <= i < N-1]. *)
Theorem item_row_shape id tup tupType iid N it X :
  (~ (MAX_ARRAY_LENGTH <= N - 1 <= MAX_SAFE_INTEGER)%Z
   /\ exists pre,
     specialConstraints pr "item" id [(tup, tupType); (QInt iid N, it)] X
       = Ok (Right [CEq tupType
              (TTup (RRow (pre ++ [(string_of_Z (N - 1), TVar X)])%list
                          (RVar ("tail_" ++ X)))) id])
     /\ Forall (fun f => exists i, (0 <= i < N - 1)%Z
                  /\ f = (string_of_Z i, TVar ("tup_" ++ X ++ "_" ++ string_of_Z i))) pre)
  \/ ((MAX_ARRAY_LENGTH <= N - 1 <= MAX_SAFE_INTEGER)%Z
      /\ specialConstraints pr "item" id [(tup, tupType); (QInt iid N, it)] X = Thrown).
Proof.
  unfold specialConstraints; simpl. unfold itemConstraints, js_bind; simpl.
  unfold js_push. rewrite times_push_room.
  destruct (Z.leb_spec MAX_ARRAY_LENGTH (N - 1));
    destruct (Z.leb_spec (N - 1) MAX_SAFE_INTEGER); simpl;
    [right; split; [lia | reflexivity] | left; split; [lia|] ..].
  all: eexists; split; [reflexivity|].
  all: unfold times; apply Forall_forall; intros f Hf;
    apply in_map_iff in Hf as (i & <- & Hi); apply in_zseq in Hi;
    destruct (times_count_bound (N - 1)) as [_ [Hc|Hc]]; exists i; split; auto; lia.
Qed.

(** [item] on an integer literal [1 <= N <= 2^32 - 1]: the open tuple row
    has [N] fields with pairwise distinct names, and the type variables it
    uses ([tail_X], the placeholders [tup_X_i] and [X]) are pairwise
    distinct. *)
Theorem item_row_names_distinct id tup tupType iid N it X
  (H1 : (1 <= N)%Z) (H2 : (N - 1 < MAX_ARRAY_LENGTH)%Z) :
  exists fs,
    specialConstraints pr "item" id [(tup, tupType); (QInt iid N, it)] X
      = Ok (Right [CEq tupType (TTup (RRow fs (RVar ("tail_" ++ X)))) id])
    /\ length fs = Z.to_nat N
    /\ NoDup (map fst fs)
    /\ NoDup (("tail_" ++ X) :: flat_map type_var_names (map snd fs)).
Proof.
  eexists. split; [apply item_constraints_within_array_limit; lia|].
  remember (Z.to_nat (N - 1)) as k eqn:Hk.
  assert (HN : (N - 1)%Z = Z.of_nat k) by lia. rewrite HN, zseq_nat.
  rewrite map_map, !map_app, map_map. simpl.
  split; [|split].
  - rewrite length_app, length_map, length_seq. simpl. lia.
  - replace [string_of_Z (Z.of_nat k)] with (map (fun i => string_of_Z (Z.of_nat i)) [k])
      by reflexivity.
    rewrite <- map_app, <- seq_S.
    apply NoDup_map_on; [|apply seq_NoDup].
    intros x y _ _. apply string_of_nat_injective.
  - rewrite flat_map_app, flat_map_placeholders. simpl.
    assert (HX : forall i, "tup_" ++ X ++ "_" ++ string_of_Z (Z.of_nat i) <> X).
    { intros i Heq. apply (f_equal String.length) in Heq.
      rewrite !str_length_app in Heq. simpl in Heq. lia. }
    constructor.
    + rewrite in_app_iff. intros [Hin|[Hin|[]]].
      * apply in_map_iff in Hin as (i & Hi & _). discriminate Hi.
      * apply (f_equal String.length) in Hin.
        simpl in Hin. lia.
    + apply NoDup_app_single.
      * apply NoDup_map_on; [|apply seq_NoDup].
        intros x y _ _ Hxy. apply string_of_nat_injective.
        injection Hxy as Hxy. apply str_app_inj_l in Hxy.
        now injection Hxy.
      * intros Hin. apply in_map_iff in Hin as (i & Hi & _). now apply (HX i).
Qed.

End Extras.

Lemma concat_app_nonempty (sep : string) (l1 l2 : list string) :
  l1 <> [] -> l2 <> [] ->
  String.concat sep (l1 ++ l2) = String.concat sep l1 ++ sep ++ String.concat sep l2.
Proof.
  intros H1 H2. induction l1 as [|x [|y r] IH]; [contradiction| |].
  - simpl. destruct l2; [contradiction|reflexivity].
  - change ((x :: y :: r) ++ l2)%list with (x :: ((y :: r) ++ l2))%list.
    change (String.concat sep (x :: ((y :: r) ++ l2))%list)
      with (x ++ sep ++ String.concat sep ((y :: r) ++ l2)%list).
    rewrite IH by discriminate.
    change (String.concat sep (x :: y :: r)) with (x ++ sep ++ String.concat sep (y :: r)).
    now rewrite !str_app_assoc.
Qed.

Lemma filter_nil_forallb (ps : list ((QuintEx * QuintType) * (QuintEx * QuintType))) :
  filter (fun k => negb (is_str_lit k)) (map (fun p => fst (fst p)) ps) = []
  <-> forallb (fun p => is_str_lit (fst (fst p))) ps = true.
Proof.
  induction ps as [|p ps IH]; simpl; [tauto|].
  destruct (is_str_lit (fst (fst p))); simpl; [exact IH|].
  split; discriminate.
Qed.

Lemma lefts_Forall {L R} (P : L -> Prop) (vs : list (Either L R)) :
  Forall (fun v => match v with Left l => P l | Right _ => True end) vs ->
  Forall P (lefts vs).
Proof.
  induction vs as [|[l|r] vs IH]; intros H; simpl; [constructor| |];
    inversion H; subst; auto.
Qed.

Section Extras2.

Variable pr : QuintEx -> string.

Lemma rec_field_errors args (cs : list (list (QuintEx * QuintType))) vs :
  js_map (recordConstructorField pr args) cs = Ok vs ->
  Forall (fun v => match v with
                   | Left t => location t = "Generating record constraints for " ++ argsToString pr args
                               /\ children t = []
                   | Right _ => True
                   end) vs.
Proof.
  revert vs; induction cs as [|c cs IH]; intros vs H; simpl in H.
  - injection H as <-. constructor.
  - unfold js_bind at 1 in H. destruct (recordConstructorField pr args c) as [v|] eqn:Ec;
      [|discriminate].
    unfold js_bind in H. destruct (js_map (recordConstructorField pr args) cs) as [ws|];
      [|discriminate].
    injection H as <-. constructor; [|apply IH; reflexivity].
    unfold recordConstructorField, js_bind, js_index in Ec.
    destruct (nth_error c 0); [|discriminate]. destruct (nth_error c 1); [|discriminate].
    destruct (fst p); injection Ec as <-; auto.
Qed.

(** Every constraint [specialConstraints] returns is an equality tagged with
    the node id of the call, and a call returns at most two constraints. *)
Theorem constraints_are_tagged_equalities opcode id args X cs :
  specialConstraints pr opcode id args X = Ok (Right cs) ->
  Forall (fun c => exists t1 t2, c = CEq t1 t2 id) cs /\ length cs <= 2.
Proof.
  intros H. unfold specialConstraints in H.
  destruct (String.eqb opcode "Rec").
  { unfold recordConstructorConstraints, js_bind in H.
    destruct (js_map (recordConstructorField pr args) (chunk2 args)); [|discriminate].
    destruct (mergeInMany v); [discriminate|].
    injection H as <-. split; [repeat constructor; eauto | simpl; lia]. }
  unfold fieldConstraints, fieldNamesConstraints, withConstraints,
    tupleConstructorConstraints, itemConstraints, js_push, js_bind, js_index in H.
  destruct (String.eqb opcode "field"), (String.eqb opcode "fieldNames"),
    (String.eqb opcode "with"), (String.eqb opcode "Tup"), (String.eqb opcode "item");
  destruct args as [|[e0 t0] [|[e1 t1] [|[e2 t2] rest]]]; simpl in H; try discriminate;
  try (destruct e1; simpl in H); try discriminate;
  try (lazymatch type of H with context [if ?b then _ else _] => destruct b end;
       simpl in H); try discriminate;
  injection H as <-; (split; [repeat constructor; eauto | simpl; lia]).
Qed.

(** Every error [specialConstraints] returns consists of at least one leaf,
    and each leaf is located at ["Generating record constraints for "]
    followed by the printed argument list of the call. *)
Theorem errors_name_the_call opcode id args X e :
  specialConstraints pr opcode id args X = Ok (Left e) ->
  error_leaves e <> []
  /\ Forall (fun t => location t = "Generating record constraints for " ++ argsToString pr args
                      /\ children t = []) (error_leaves e).
Proof.
  intros H. unfold specialConstraints in H.
  destruct (String.eqb opcode "Rec").
  { unfold recordConstructorConstraints, js_bind in H.
    destruct (js_map (recordConstructorField pr args) (chunk2 args)) as [vs|] eqn:Ev;
      [|discriminate].
    apply rec_field_errors in Ev.
    rewrite mergeInMany_spec in H.
    destruct (lefts vs) as [|l ls] eqn:El; [discriminate|].
    injection H as <-. simpl. split; [discriminate|].
    rewrite <- El. now apply lefts_Forall. }
  unfold fieldConstraints, fieldNamesConstraints, withConstraints,
    tupleConstructorConstraints, itemConstraints, js_push, js_bind, js_index in H.
  destruct (String.eqb opcode "field"), (String.eqb opcode "fieldNames"),
    (String.eqb opcode "with"), (String.eqb opcode "Tup"), (String.eqb opcode "item");
  destruct args as [|[e0 t0] [|[e1 t1] [|[e2 t2] rest]]]; simpl in H; try discriminate;
  try (destruct e1; simpl in H); try discriminate;
  try (lazymatch type of H with context [if ?b then _ else _] => destruct b end;
       simpl in H); try discriminate;
  injection H as <-; simpl; (split; [discriminate | repeat constructor]).
Qed.

(** A [Rec] call on an even-length argument list succeeds exactly when every
    key is a string literal, and returns an error (it never throws) exactly
    when some key is not. *)
Theorem rec_succeeds_iff_keys_literal id
  (ps : list ((QuintEx * QuintType) * (QuintEx * QuintType))) X :
  ((exists cs, specialConstraints pr "Rec" id (rec_pair_args ps) X = Ok (Right cs))
   <-> forallb (fun p => is_str_lit (fst (fst p))) ps = true)
  /\ ((exists e, specialConstraints pr "Rec" id (rec_pair_args ps) X = Ok (Left e))
   <-> forallb (fun p => is_str_lit (fst (fst p))) ps = false).
Proof.
  unfold specialConstraints; simpl. unfold recordConstructorConstraints.
  rewrite chunk2_rec_pair_args, rec_fields_of_pairs. simpl.
  rewrite mergeInMany_spec, lefts_rec_fields.
  destruct (forallb (fun p => is_str_lit (fst (fst p))) ps) eqn:Hall.
  - apply filter_nil_forallb in Hall. rewrite Hall. simpl.
    split; split; eauto; [intros [e He]; discriminate | discriminate].
  - destruct (filter (fun k => negb (is_str_lit k)) (map (fun p => fst (fst p)) ps)) eqn:Hf.
    + apply filter_nil_forallb in Hf. congruence.
    + simpl. split; split; eauto; [intros [cs Hcs]; discriminate | discriminate].
Qed.

(** [field], [with] and [item] fail exactly when their second argument has
    the wrong literal kind (not a string literal, resp. not an integer
    literal), whatever the other arguments are. *)
Theorem literal_check_decides_failure id a0 a1 a2 rest X :
  ((exists e, specialConstraints pr "field" id (a0 :: a1 :: rest) X = Ok (Left e))
     <-> is_str_lit (fst a1) = false)
  /\ ((exists e, specialConstraints pr "with" id (a0 :: a1 :: a2 :: rest) X = Ok (Left e))
     <-> is_str_lit (fst a1) = false)
  /\ ((exists e, specialConstraints pr "item" id (a0 :: a1 :: rest) X = Ok (Left e))
     <-> is_int_lit (fst a1) = false).
Proof.
  destruct a1 as [e1 t1].
  destruct e1; cbv [specialConstraints String.eqb fieldConstraints withConstraints
                    itemConstraints js_push js_bind js_index nth_error fst snd is_str_lit
                    is_int_lit Ascii.eqb Bool.eqb];
    try (lazymatch goal with |- context [if ?b then _ else _] => destruct b end; simpl);
    repeat split; try discriminate; try (intros [e He]; discriminate); eauto.
Qed.

End Extras2.

(** Printing a conjunction of two non-empty conjunctions gives the same
    text as printing the flattened conjunction. *)
Theorem constraintToString_flatten (typeToString : QuintType -> string)
  (cs1 cs2 : list Constraint) (H1 : 0 < length cs1) (H2 : 0 < length cs2) :
  constraintToString typeToString (CConj [CConj cs1; CConj cs2])
  = constraintToString typeToString (CConj (cs1 ++ cs2)).
Proof.
  simpl. rewrite map_app, concat_app_nonempty.
  - reflexivity.
  - destruct cs1; simpl in H1; [lia|discriminate].
  - destruct cs2; simpl in H2; [lia|discriminate].
Qed.

Lemma item_row_names_distinct_witness :
  (1 <= 3)%Z /\ (3 - 1 <= MAX_ARRAY_LENGTH)%Z
  /\ exists fs,
    specialConstraints show_ex "item" 0 [(QName 1 "t", TVar "T"); (QInt 2 3, TInt)] "X"
      = Ok (Right [CEq (TVar "T") (TTup (RRow fs (RVar ("tail_" ++ "X")))) 0])
    /\ length fs = Z.to_nat 3
    /\ NoDup (map fst fs)
    /\ NoDup (("tail_" ++ "X") :: flat_map type_var_names (map snd fs)).
Proof.
  split; [lia|]. split; [unfold MAX_ARRAY_LENGTH; lia|].
  apply (item_row_names_distinct show_ex 0 (QName 1 "t") (TVar "T") 2 3 TInt "X");
    [lia | unfold MAX_ARRAY_LENGTH; lia].
Defined.

Lemma constraints_are_tagged_equalities_witness :
  let cs := [CEq (TVar "R") (TRec (RRow [("x", TInt)] (RVar "tail_X"))) 0;
             CEq (TVar "X") (TRec (RRow [("x", TInt)] (RVar "tail_X"))) 0] in
  specialConstraints show_ex "with" 0 with_sample_args "X" = Ok (Right cs)
  /\ (Forall (fun c => exists t1 t2, c = CEq t1 t2 0) cs /\ length cs <= 2).
Proof.
  intros cs. split; [reflexivity|].
  apply (constraints_are_tagged_equalities show_ex "with" 0 with_sample_args "X" cs).
  reflexivity.
Defined.

Lemma errors_name_the_call_witness :
  let e := ErrTree (buildErrorLeaf "Generating record constraints for r,x"
                      "Record field name must be a string expression but is name: x") in
  specialConstraints show_ex "field" 0 [(QName 1 "r", TVar "R"); (QName 2 "x", TStr)] "X"
    = Ok (Left e)
  /\ (error_leaves e <> []
      /\ Forall (fun t => location t = "Generating record constraints for "
                                      ++ argsToString show_ex [(QName 1 "r", TVar "R"); (QName 2 "x", TStr)]
                          /\ children t = []) (error_leaves e)).
Proof.
  intros e. split; [vm_compute; reflexivity|].
  apply (errors_name_the_call show_ex "field" 0 [(QName 1 "r", TVar "R"); (QName 2 "x", TStr)] "X" e).
  vm_compute. reflexivity.
Defined.

Lemma constraintToString_flatten_witness :
  0 < length [CEmpty] /\ 0 < length [CEmpty; CEmpty]
  /\ constraintToString (fun _ => "T") (CConj [CConj [CEmpty]; CConj [CEmpty; CEmpty]])
     = constraintToString (fun _ => "T") (CConj ([CEmpty] ++ [CEmpty; CEmpty])).
Proof.
  split; [simpl; lia|]. split; [simpl; lia|].
  apply (constraintToString_flatten (fun _ => "T") [CEmpty] [CEmpty; CEmpty]); simpl; lia.
Defined.
